(** * The code-generator base class of the Thrift compiler

    A shallow embedding of [compiler/cpp/src/generate/t_generator.h]: the
    naming transforms ([capitalize], [decapitalize], [lowercase],
    [underscore], [camelcase]), the indentation and temporary-name
    bookkeeping of a generator instance, the default exception hook, the
    output directory and typedef resolution.

    Conventions of the embedding.
    - A [std::string] is a list of 8-bit characters ([list ascii]); [s[i]]
      is stdpp's list lookup, [s[i] = c] its list insert.
    - [toupper], [tolower] and [isupper] are the <cctype> functions in the
      "C" locale: only the 26 ASCII letters have a case, every other
      character is mapped to itself.
    - [int] is the 32-bit signed integer, embedded in [Z].  Signed overflow
      is undefined behaviour in C++, and so is writing through [in[0]] on an
      empty string: an operation that would do either returns [None].
    - The [for] loops keep the index of the source and are defined by
      well-founded recursion on what is left to visit; the [while] loop of
      [get_true_type], which need not terminate, runs on fuel. *)

From Equations Require Import Equations.
From Equations.Prop Require Import Logic.
From Stdlib Require Import ZArith Ascii String Lia.
From Stdlib Require Import DecimalString DecimalPos DecimalZ.
From stdpp Require Import base option list strings gmap.

Set Default Proof Using "Type".

(** ** Strings and characters *)

Abbreviation std_string := (list ascii) (only parsing).

(** A string literal of the source, as a [std::string]. *)
Definition lit (s : string) : std_string := list_ascii_of_string s.

#[global] Instance ascii_inhabited : Inhabited ascii := populate zero.

(** <cctype>, "C" locale. *)
Definition isupper (c : ascii) : bool :=
  (65 <=? nat_of_ascii c)%nat && (nat_of_ascii c <=? 90)%nat.

Definition islower (c : ascii) : bool :=
  (97 <=? nat_of_ascii c)%nat && (nat_of_ascii c <=? 122)%nat.

Definition tolower (c : ascii) : ascii :=
  if isupper c then ascii_of_nat (nat_of_ascii c + 32) else c.

Definition toupper (c : ascii) : ascii :=
  if islower c then ascii_of_nat (nat_of_ascii c - 32) else c.

(** [s.insert(pos, str)]: [str] is placed before the character at [pos].
    The library throws [std::out_of_range] when [pos > s.size()]; the one
    call below has [pos < s.size()]. *)
Definition string_insert (pos : nat) (str s : std_string) : std_string :=
  take pos s ++ str ++ drop pos s.

(** ** Capitalization helpers *)

Definition capitalize (in_ : std_string) : option std_string :=
  c ← in_ !! 0%nat; Some (<[0%nat := toupper c]> in_).

Definition decapitalize (in_ : std_string) : option std_string :=
  c ← in_ !! 0%nat; Some (<[0%nat := tolower c]> in_).

Equations? lowercase_loop (in_ : std_string) (i : nat) : std_string
  by wf (length in_ - i)%nat lt :=
  lowercase_loop in_ i with decide (i < length in_)%nat := {
    | left _ := lowercase_loop (<[i := tolower (in_ !!! i)]> in_) (S i)
    | right _ := in_ }.
Proof. rewrite length_insert. lia. Qed.

Definition lowercase (in_ : std_string) : std_string := lowercase_loop in_ 0.

(** ** camel case to underscores *)

(** What is left for the loop of [underscore] to do at index [i]: the
    characters from [i] on, each uppercase one counted twice (after the
    insertion the loop visits the lowered letter once more). *)
Definition underscore_todo (in_ : std_string) (i : nat) : nat :=
  length (drop i in_) + length (filter (λ c, isupper c = true) (drop i in_)).

(** The loop [for (size_t i = 1; i < in.size(); ++i)] of [underscore],
    entered at index [i] with the string [in_]. *)
Equations? underscore_loop (in_ : std_string) (i : nat) : std_string
  by wf (underscore_todo in_ i) lt :=
  underscore_loop in_ i with decide (i < length in_)%nat := {
    | right _ := in_
    | left Hlt with inspect (isupper (in_ !!! i)) := {
        | exist _ true Hup :=
            underscore_loop
              (string_insert i (lit "_") (<[i := tolower (in_ !!! i)]> in_))
              (S i)
        | exist _ false Hlo := underscore_loop in_ (S i) } }.
Proof.
  - unfold underscore_todo, string_insert.
    destruct (lookup_lt_is_Some_2 in_ i Hlt) as [c Hc].
    rewrite (list_lookup_total_correct _ _ _ Hc) in Hup |- *.
    rewrite drop_app_ge by (rewrite length_take, length_insert; lia).
    rewrite length_take, length_insert.
    replace (S i - i `min` length in_)%nat with 1%nat by lia.
    change (lit "_") with ["_"%char]. cbn [app skipn].
    rewrite (drop_S in_ c i Hc).
    rewrite (drop_S (<[i:=tolower c]> in_) (tolower c) i)
      by (apply list_lookup_insert_eq; lia).
    rewrite drop_insert_lt by lia.
    rewrite ?drop_0, (filter_cons_True _ c) by exact Hup.
    rewrite filter_cons_False; [cbn; lia|].
    unfold tolower. rewrite Hup. clear -Hup.
    destruct c as [[] [] [] [] [] [] [] []]; cbv in Hup |- *; congruence.
  - unfold underscore_todo.
    destruct (lookup_lt_is_Some_2 in_ i Hlt) as [c Hc].
    rewrite (drop_S in_ c i Hc). cbn [length].
    pose proof (length_filter (λ c, isupper c = true) (drop (S i) in_)).
    destruct (decide (isupper c = true)).
    + rewrite filter_cons_True by done. cbn. lia.
    + rewrite filter_cons_False by done. lia.
Qed.

Definition underscore (in_ : std_string) : option std_string :=
  c ← in_ !! 0%nat; Some (underscore_loop (<[0%nat := tolower c]> in_) 1).

(** ** underscores to camel case *)

(** The loop [for (size_t i = 0; i < in.size(); i++)] of [camelcase], at
    index [i], with the local flag [underscore] and the characters written
    to [out] so far. *)
Equations? camelcase_loop (in_ : std_string) (i : nat) (uscore : bool)
    (out : std_string) : std_string by wf (length in_ - i)%nat lt :=
  camelcase_loop in_ i uscore out with decide (i < length in_)%nat := {
    | right _ := out
    | left _ :=
        if Ascii.eqb (in_ !!! i) "_" then camelcase_loop in_ (S i) true out
        else if uscore then
          camelcase_loop in_ (S i) false (out ++ [toupper (in_ !!! i)])
        else camelcase_loop in_ (S i) uscore (out ++ [in_ !!! i]) }.
Proof. all: lia. Qed.

Definition camelcase (in_ : std_string) : std_string :=
  camelcase_loop in_ 0 false [].

(** ** The program being generated *)

(** Modelled from the spec: [parse/t_program.h] is not among the sources.
    Of the declaration tree the generator reads a name and the declared
    output-path root; the two accessors return the stored strings. *)
Record t_program := {
  name_ : std_string;
  out_path_ : std_string }.

Definition get_name (tprogram : t_program) : std_string := name_ tprogram.
Definition get_out_path (tprogram : t_program) : std_string :=
  out_path_ tprogram.

(** ** Generator instance state *)

Definition INT_MAX : Z := 2147483647.
Definition INT_MIN : Z := -2147483648.

Record t_generator := {
  program_ : t_program;
  program_name_ : std_string;
  service_name_ : std_string;
  out_dir_base_ : std_string;
  escape_ : gmap ascii (list ascii);
  indent_ : Z;
  tmp_ : Z }.

Definition set_indent_ (v : Z) (g : t_generator) : t_generator :=
  {| program_ := program_ g; program_name_ := program_name_ g;
     service_name_ := service_name_ g; out_dir_base_ := out_dir_base_ g;
     escape_ := escape_ g; indent_ := v; tmp_ := tmp_ g |}.

Definition set_tmp_ (v : Z) (g : t_generator) : t_generator :=
  {| program_ := program_ g; program_name_ := program_name_ g;
     service_name_ := service_name_ g; out_dir_base_ := out_dir_base_ g;
     escape_ := escape_ g; indent_ := indent_ g; tmp_ := v |}.

Definition get_program_name (tprogram : t_program) : std_string :=
  get_name tprogram.

(** The constructor.  The two strings it does not assign are default
    constructed, hence empty. *)
Definition new_t_generator (program : t_program) : t_generator :=
  {| program_ := program;
     program_name_ := get_program_name program;
     service_name_ := [];
     out_dir_base_ := [];
     escape_ :=
       <["092"%char := ["092"; "092"]%char]>
         (<["034"%char := ["092"; "034"]%char]>
            (<["009"%char := ["092"; "t"]%char]>
               (<["013"%char := ["092"; "r"]%char]>
                  (<["010"%char := ["092"; "n"]%char]> ∅))));
     indent_ := 0;
     tmp_ := 0 |}.

(** [out_dir_base_] is protected: the constructor of a backend assigns its
    tag ("gen-cpp", "gen-java", ...) to it. *)
Definition with_out_dir_base_ (tag : std_string) (g : t_generator)
  : t_generator :=
  {| program_ := program_ g; program_name_ := program_name_ g;
     service_name_ := service_name_ g; out_dir_base_ := tag;
     escape_ := escape_ g; indent_ := indent_ g; tmp_ := tmp_ g |}.

Definition get_out_dir (g : t_generator) : std_string :=
  (get_out_path (program_ g) ++ out_dir_base_ g) ++ lit "/".

(** [out << n] for an [int] on a default-constructed stream: decimal
    digits, a minus sign for negative numbers. *)
Definition ostream_int (n : Z) : std_string :=
  lit (NilZero.string_of_int (Z.to_int n)).

(** [tmp_++] at [INT_MAX] overflows. *)
Definition tmp (name : std_string) (g : t_generator)
  : option (std_string * t_generator) :=
  if decide (tmp_ g < INT_MAX)%Z
  then Some (name ++ ostream_int (tmp_ g), set_tmp_ (tmp_ g + 1) g)
  else None.

Definition indent_up (g : t_generator) : option t_generator :=
  if decide (indent_ g < INT_MAX)%Z
  then Some (set_indent_ (indent_ g + 1) g) else None.

Definition indent_down (g : t_generator) : option t_generator :=
  if decide (INT_MIN < indent_ g)%Z
  then Some (set_indent_ (indent_ g - 1) g) else None.

(** The loop [for (i = 0; i < indent_; ++i)] of [indent], at index [i] with
    the prefix [ind] built so far.  [++i] stays below [indent_]. *)
Equations? indent_loop (level : Z) (i : Z) (ind : std_string) : std_string
  by wf (Z.to_nat (level - i)) lt :=
  indent_loop level i ind with decide (i < level)%Z := {
    | left _ := indent_loop level (i + 1) (ind ++ lit "  ")
    | right _ := ind }.
Proof. lia. Qed.

Definition indent (g : t_generator) : std_string :=
  indent_loop (indent_ g) 0 [].

(** The methods of the base class that change an instance, and one step of
    an instance's life: a call of one of them that is defined.  [tmp_] and
    [indent_] are private, so a backend reaches them through these only. *)
Inductive method :=
  | call_tmp (name : std_string)
  | call_indent_up
  | call_indent_down.

Definition call (m : method) (g : t_generator) : option t_generator :=
  match m with
  | call_tmp name => snd <$> tmp name g
  | call_indent_up => indent_up g
  | call_indent_down => indent_down g
  end.

Fixpoint calls (ms : list method) (g : t_generator) : option t_generator :=
  match ms with
  | [] => Some g
  | m :: ms => g' ← call m g; calls ms g'
  end.

(** ** The generation contract *)

Section contract.

(** The declaration classes of [parse/] are not among the sources; a hook
    only receives a declaration, so they are parameters here. *)
Context {t_typedef t_enum t_const t_struct t_service : Type}.

(** What a hook works on: the instance and what the backend owns besides
    (its output streams, its own fields). *)
Context {backend : Type}.

(** A hook returns [None] when it throws. *)
Definition hook (D : Type) : Type :=
  D → t_generator * backend → option (t_generator * backend).

(** The pure virtual methods: what a subclass has to supply. *)
Class t_generator_impl := {
  generate_typedef : hook t_typedef;
  generate_enum : hook t_enum;
  generate_struct : hook t_struct;
  generate_service : hook t_service }.

Context `{!t_generator_impl}.

Definition generate_const : hook t_const := λ tconst st, Some st.

(** By default exceptions are the same as structs. *)
Definition generate_xception : hook t_struct :=
  λ txception st, generate_struct txception st.

End contract.

(** ** Typedef resolution *)

(** Modelled from the spec: [parse/t_type.h] and [parse/t_typedef.h] are
    not among the sources.  A type object is a typedef, which holds a
    pointer to the type it names, or it is not a typedef; type objects live
    in a store and are referred to by address, so a chain of typedefs may
    be of any shape, also cyclic or dangling. *)
Inductive t_type :=
  | Typedef (type_ : positive)
  | NotTypedef (name : std_string).

Definition is_typedef (t : t_type) : bool :=
  match t with Typedef _ => true | NotTypedef _ => false end.

(** [((t_typedef* )type)->get_type()]; the cast is only valid on a typedef. *)
Definition get_type (t : t_type) : option positive :=
  match t with Typedef type_ => Some type_ | NotTypedef _ => None end.

(** The result of running a loop that need not terminate for a bounded
    number of iterations. *)
Inductive run (A : Type) :=
  | Returns (a : A)
  | Undefined
  | Unfinished.
Arguments Returns {A} a.
Arguments Undefined {A}.
Arguments Unfinished {A}.

(** [get_true_type], its [while] loop run for at most [fuel] tests of the
    condition.  Dereferencing an address with no object is undefined. *)
Fixpoint get_true_type (fuel : nat) (types : gmap positive t_type)
    (type : positive) : run positive :=
  match fuel with
  | O => Unfinished
  | S fuel =>
      match types !! type with
      | None => Undefined
      | Some t =>
          if is_typedef t then
            match get_type t with
            | Some type' => get_true_type fuel types type'
            | None => Undefined
            end
          else Returns type
      end
  end.

(** The typedef chain that starts at [type] has [n] links and ends in the
    object at [last], which is not a typedef. *)
Inductive typedef_chain (types : gmap positive t_type)
  : positive → nat → positive → Prop :=
  | chain_end type name :
      types !! type = Some (NotTypedef name) →
      typedef_chain types type 0 type
  | chain_link type type' n last :
      types !! type = Some (Typedef type') →
      typedef_chain types type' n last →
      typedef_chain types type (S n) last.

(** ** The transforms as the specification words them *)

(** camel-to-snake on the characters after the first: an uppercase
    character is lowercased and a separator is put immediately before it;
    any other character is kept. *)
Fixpoint snake_tail (s : std_string) : std_string :=
  match s with
  | [] => []
  | c :: s' =>
      if isupper c then "_"%char :: tolower c :: snake_tail s'
      else c :: snake_tail s'
  end.

(** camel-to-snake: the first character is lowercased, the remaining ones
    are scanned left to right; no result on the empty identifier. *)
Definition camel_to_snake (s : std_string) : option std_string :=
  match s with
  | [] => None
  | c :: s' => Some (tolower c :: snake_tail s')
  end.

(** snake-to-camel, scanning left to right with the flag [flag]: a
    separator is consumed and sets the flag; with the flag set the next
    character is emitted uppercased and the flag cleared; any other
    character passes through. *)
Fixpoint snake_to_camel (flag : bool) (s : std_string) : std_string :=
  match s with
  | [] => []
  | c :: s' =>
      if Ascii.eqb c "_" then snake_to_camel true s'
      else if flag then toupper c :: snake_to_camel false s'
      else c :: snake_to_camel false s'
  end.

(** [r] reproduces [s] apart from the case of the first character. *)
Definition same_but_first_case (s r : std_string) : bool :=
  match s, r with
  | c :: s', c' :: r' =>
      bool_decide (tolower c = tolower c') && bool_decide (s' = r')
  | [], [] => true
  | _, _ => false
  end.

(** ** Vocabulary of the further properties *)

(** A name in snake case, after its first character: no uppercase
    character, and every separator is followed by a lowercase letter. *)
Fixpoint snake_case_tail (s : std_string) : bool :=
  match s with
  | [] => true
  | c :: s' =>
      if Ascii.eqb c "_" then
        match s' with
        | x :: s'' => islower x && snake_case_tail s''
        | [] => false
        end
      else negb (isupper c) && snake_case_tail s'
  end.

(** A name in snake case: it starts with a character that is neither a
    separator nor uppercase. *)
Definition snake_case (s : std_string) : bool :=
  match s with
  | [] => false
  | c :: s' =>
      negb (Ascii.eqb c "_") && negb (isupper c) && snake_case_tail s'
  end.

Definition isdigit (c : ascii) : bool :=
  (48 <=? nat_of_ascii c)%nat && (nat_of_ascii c <=? 57)%nat.

Definition ends_in_digit (s : std_string) : bool :=
  match last s with Some c => isdigit c | None => false end.

(** The values of an [int]. *)
Definition is_int (z : Z) : Prop := (INT_MIN ≤ z ≤ INT_MAX)%Z.

(** What a call adds to the indent level and to the temp counter. *)
Definition indent_change (m : method) : Z :=
  match m with
  | call_indent_up => 1
  | call_indent_down => -1
  | call_tmp _ => 0
  end.

Definition tmp_change (m : method) : Z :=
  match m with call_tmp _ => 1 | _ => 0 end.

Definition total_change (f : method → Z) (ms : list method) : Z :=
  foldr (λ m z, (f m + z)%Z) 0%Z ms.

(** [n] typedef links lead from [type] to [last], whatever [last] is. *)
Inductive typedef_path (types : gmap positive t_type)
  : positive → nat → positive → Prop :=
  | path_here type : typedef_path types type 0 type
  | path_link type type' n last :
      types !! type = Some (Typedef type') →
      typedef_path types type' n last →
      typedef_path types type (S n) last.

(** * Properties *)

(** ** Characters *)

Ltac by_cases_on_char c :=
  destruct c as [[] [] [] [] [] [] [] []]; vm_compute; try reflexivity;
  try (intros; congruence); try (split; intros; congruence).

Lemma isupper_tolower c : isupper (tolower c) = false.
Proof. by_cases_on_char c. Qed.

Lemma toupper_tolower c : isupper c = true → toupper (tolower c) = c.
Proof. by_cases_on_char c. Qed.

Lemma tolower_tolower c : tolower (tolower c) = tolower c.
Proof. by_cases_on_char c. Qed.

Lemma tolower_not_upper c : isupper c = false → tolower c = c.
Proof. unfold tolower. by intros ->. Qed.

Lemma tolower_eqb_underscore c :
  Ascii.eqb (tolower c) "_" = Ascii.eqb c "_".
Proof. by_cases_on_char c. Qed.

Lemma isupper_underscore c : Ascii.eqb c "_" = true → isupper c = false.
Proof. by_cases_on_char c. Qed.

(** ** Unfolding the loops *)

Lemma underscore_loop_done in_ i :
  (length in_ ≤ i)%nat → underscore_loop in_ i = in_.
Proof.
  intros Hi. funelim (underscore_loop in_ i); try lia. reflexivity.
Qed.

Lemma underscore_loop_upper in_ i c :
  in_ !! i = Some c → isupper c = true →
  underscore_loop in_ i =
    underscore_loop (string_insert i (lit "_") (<[i := tolower c]> in_)) (S i).
Proof.
  intros Hc Hup. pose proof (lookup_lt_Some _ _ _ Hc) as Hlt.
  rewrite <- (list_lookup_total_correct _ _ _ Hc) in Hup |- *.
  funelim (underscore_loop in_ i); try lia; try congruence.
Qed.

Lemma underscore_loop_other in_ i c :
  in_ !! i = Some c → isupper c = false →
  underscore_loop in_ i = underscore_loop in_ (S i).
Proof.
  intros Hc Hup. pose proof (lookup_lt_Some _ _ _ Hc) as Hlt.
  rewrite <- (list_lookup_total_correct _ _ _ Hc) in Hup.
  funelim (underscore_loop in_ i); try lia; try congruence.
Qed.

Lemma string_insert_middle pre c c' suf :
  string_insert (length pre) (lit "_") (<[length pre := c']> (pre ++ c :: suf))
  = pre ++ "_"%char :: c' :: suf.
Proof.
  unfold string_insert.
  replace (<[length pre := c']> (pre ++ c :: suf)) with (pre ++ c' :: suf).
  - by rewrite take_app_length, drop_app_length.
  - rewrite <- (Nat.add_0_r (length pre)) at 1. by rewrite insert_app_r.
Qed.

(** The loop of [underscore], entered after the prefix [pre], leaves [pre]
    alone and rewrites the rest as the specification says. *)
Lemma underscore_loop_spec suf : ∀ pre,
  underscore_loop (pre ++ suf) (length pre) = pre ++ snake_tail suf.
Proof.
  induction suf as [|c suf IH]; intros pre.
  - cbn [snake_tail]. rewrite app_nil_r. by apply underscore_loop_done.
  - cbn [snake_tail]. destruct (isupper c) eqn:Hup.
    + rewrite (underscore_loop_upper _ _ c)
        by (done || apply list_lookup_middle; done).
      rewrite string_insert_middle.
      change (pre ++ "_"%char :: tolower c :: suf)
        with (pre ++ ["_"%char] ++ tolower c :: suf).
      rewrite (assoc_L (++)).
      replace (S (length pre)) with (length (pre ++ ["_"%char]))
        by (rewrite length_app; cbn; lia).
      rewrite (underscore_loop_other _ _ (tolower c))
        by (apply list_lookup_middle || apply isupper_tolower; done).
      rewrite (cons_middle (tolower c)), (assoc_L (++)).
      replace (S (length (pre ++ ["_"%char])))
        with (length ((pre ++ ["_"%char]) ++ [tolower c]))
        by (rewrite !length_app; cbn; lia).
      rewrite IH. by rewrite <- !(assoc_L (++)).
    + rewrite (underscore_loop_other _ _ c)
        by (done || apply list_lookup_middle; done).
      rewrite (cons_middle c), (assoc_L (++)).
      replace (S (length pre)) with (length (pre ++ [c]))
        by (rewrite length_app; cbn; lia).
      rewrite IH. by rewrite <- (assoc_L (++)).
Qed.

Lemma underscore_cons c rest :
  underscore (c :: rest) = Some (tolower c :: snake_tail rest).
Proof.
  unfold underscore. cbn. f_equal.
  apply (underscore_loop_spec rest [tolower c]).
Qed.

Lemma camelcase_loop_done in_ i uscore out :
  (length in_ ≤ i)%nat → camelcase_loop in_ i uscore out = out.
Proof.
  intros Hi. funelim (camelcase_loop in_ i uscore out); try lia. reflexivity.
Qed.

Lemma camelcase_loop_step in_ i uscore out c :
  in_ !! i = Some c →
  camelcase_loop in_ i uscore out =
    if Ascii.eqb c "_" then camelcase_loop in_ (S i) true out
    else if uscore then camelcase_loop in_ (S i) false (out ++ [toupper c])
    else camelcase_loop in_ (S i) uscore (out ++ [c]).
Proof.
  intros Hc. pose proof (lookup_lt_Some _ _ _ Hc) as Hlt.
  rewrite <- (list_lookup_total_correct _ _ _ Hc).
  funelim (camelcase_loop in_ i uscore out); try lia. reflexivity.
Qed.

(** The loop of [camelcase], entered after the prefix [pre], appends to
    [out] what the specification's scan makes of the rest. *)
Lemma camelcase_loop_spec suf : ∀ pre uscore out,
  camelcase_loop (pre ++ suf) (length pre) uscore out
  = out ++ snake_to_camel uscore suf.
Proof.
  induction suf as [|c suf IH]; intros pre uscore out.
  - cbn [snake_to_camel]. rewrite !app_nil_r. by apply camelcase_loop_done.
  - rewrite (camelcase_loop_step _ _ _ _ c) by (by apply list_lookup_middle).
    cbn [snake_to_camel].
    rewrite (cons_middle c pre suf), (assoc_L (++)).
    replace (S (length pre)) with (length (pre ++ [c]))
      by (rewrite length_app; cbn; lia).
    rewrite !IH.
    destruct (Ascii.eqb c "_"); [done|].
    destruct uscore; by rewrite <- (assoc_L (++)).
Qed.

Lemma camelcase_snake_to_camel in_ : camelcase in_ = snake_to_camel false in_.
Proof. apply (camelcase_loop_spec in_ [] false []). Qed.

(** ** The scan of snake-to-camel *)

Lemma snake_to_camel_run flag n rest :
  snake_to_camel flag (replicate (S n) "_"%char ++ rest)
  = snake_to_camel true rest.
Proof.
  revert flag. induction n as [|n IH]; intros flag; [done|].
  change (replicate (S (S n)) "_"%char ++ rest)
    with ("_"%char :: (replicate (S n) "_"%char ++ rest)).
  cbn [snake_to_camel]. change (Ascii.eqb "_" "_") with true. apply IH.
Qed.

Lemma snake_to_camel_app_separator flag pre rest :
  snake_to_camel flag (pre ++ "_"%char :: rest)
  = snake_to_camel flag pre ++ snake_to_camel true rest.
Proof.
  revert flag. induction pre as [|c pre IH]; intros flag; [done|].
  cbn [app snake_to_camel].
  destruct (Ascii.eqb c "_"); [apply IH|].
  destruct flag; cbn [app]; f_equal; apply IH.
Qed.

Lemma snake_to_camel_trailing flag s :
  snake_to_camel flag (s ++ ["_"%char]) = snake_to_camel flag s.
Proof.
  rewrite snake_to_camel_app_separator. cbn [snake_to_camel].
  apply app_nil_r.
Qed.

Lemma snake_to_camel_after_separator c rest :
  c ≠ "_"%char →
  snake_to_camel true (c :: rest) = toupper c :: snake_to_camel false rest.
Proof.
  intros Hc. cbn [snake_to_camel].
  by rewrite (proj2 (Ascii.eqb_neq c "_") Hc).
Qed.

(** ** Claims about the naming transforms *)

(** C8. On a non-empty identifier [capitalize] sets the first character to
    its uppercase form and [decapitalize] sets it to its lowercase form;
    the length is unchanged and every character after the first is the one
    of the input. *)
Theorem capitalize_decapitalize_first_only (in_ : std_string) :
  in_ ≠ [] →
  ∃ up lo,
    capitalize in_ = Some up ∧ decapitalize in_ = Some lo
    ∧ length up = length in_ ∧ length lo = length in_
    ∧ up !! 0%nat = toupper <$> in_ !! 0%nat
    ∧ lo !! 0%nat = tolower <$> in_ !! 0%nat
    ∧ ∀ i, (0 < i)%nat → up !! i = in_ !! i ∧ lo !! i = in_ !! i.
Proof.
  destruct in_ as [|c rest]; [done|]. intros _.
  exists (toupper c :: rest), (tolower c :: rest).
  repeat split; try reflexivity.
  all: destruct i; [lia | reflexivity].
Qed.

Lemma capitalize_decapitalize_first_only_witness :
  ∃ up lo,
    capitalize (lit "name") = Some up ∧ decapitalize (lit "Name") = Some lo
    ∧ up = lit "Name" ∧ lo = lit "name".
Proof.
  destruct (capitalize_decapitalize_first_only (lit "name"))
    as (up & _ & Hup & _); [vm_compute; congruence|].
  destruct (capitalize_decapitalize_first_only (lit "Name"))
    as (_ & lo & _ & Hlo & _); [vm_compute; congruence|].
  exists up, lo. vm_compute in Hup, Hlo. vm_compute.
  repeat split; congruence.
Defined.

(** C3. On a non-empty identifier [underscore] lowercases the first
    character and rewrites the remaining ones left to right, putting a
    separator before each uppercase character and lowercasing it; every
    character of a run of uppercase characters gets its own separator. *)
Theorem underscore_camel_to_snake :
  (∀ in_ : std_string, in_ ≠ [] →
     ∃ c rest, in_ = c :: rest
       ∧ underscore in_ = camel_to_snake in_
       ∧ underscore in_ = Some (tolower c :: snake_tail rest))
  ∧ (∀ c (caps rest : std_string),
       Forall (λ u, isupper u = true) caps →
       underscore (c :: caps ++ rest)
       = Some (tolower c :: (caps ≫= λ u, ["_"%char; tolower u])
                 ++ snake_tail rest))
  ∧ underscore (lit "CamelCase") = Some (lit "camel_case")
  ∧ underscore (lit "aMultiWord") = Some (lit "a_multi_word")
  ∧ underscore (lit "Name") = Some (lit "name").
Proof.
  split; [|split; [|by vm_compute]].
  - intros [|c rest] Hne; [done|]. exists c, rest.
    by rewrite underscore_cons.
  - intros c caps rest Hcaps. rewrite underscore_cons. do 2 f_equal.
    induction Hcaps as [|u caps Hu _ IH]; [done|].
    cbn [app snake_tail]. rewrite Hu, IH. reflexivity.
Qed.

Lemma underscore_camel_to_snake_witness :
  (∃ c rest, lit "aBCd" = c :: rest
     ∧ underscore (lit "aBCd") = camel_to_snake (lit "aBCd")
     ∧ underscore (lit "aBCd") = Some (tolower c :: snake_tail rest))
  ∧ underscore (lit "aBCd") = Some (lit "a_b_cd").
Proof.
  split.
  - apply (proj1 underscore_camel_to_snake). vm_compute. congruence.
  - refine (proj1 (proj2 underscore_camel_to_snake)
              "a"%char (lit "BC") (lit "d") _).
    vm_compute. repeat constructor.
Defined.

(** C4. [camelcase] scans left to right: an underscore is consumed and sets
    the flag; with the flag set the next character is emitted uppercased
    and the flag cleared; any other character passes through; an underscore
    at the very end, with nothing after it, leaves no trace. *)
Theorem camelcase_scan :
  (∀ in_ : std_string, camelcase in_ = snake_to_camel false in_)
  ∧ (∀ in_ : std_string, camelcase (in_ ++ lit "_") = camelcase in_)
  ∧ camelcase (lit "a_multi_word") = lit "aMultiWord"
  ∧ camelcase (lit "name") = lit "name".
Proof.
  split; [exact camelcase_snake_to_camel|].
  split; [|by vm_compute].
  intros in_. rewrite !camelcase_snake_to_camel.
  apply snake_to_camel_trailing.
Qed.

(** C9. [camelcase] treats a run of one or more underscores as one
    separator: the whole run is consumed and only the character after it
    is uppercased, so the length of the run cannot be read off the
    output. *)
Theorem camelcase_underscore_run :
  (∀ (pre rest : std_string) n c,
     c ≠ "_"%char →
     camelcase (pre ++ replicate (S n) "_"%char ++ c :: rest)
     = camelcase pre ++ toupper c :: camelcase rest)
  ∧ (∀ (pre rest : std_string) n m,
       camelcase (pre ++ replicate (S n) "_"%char ++ rest)
       = camelcase (pre ++ replicate (S m) "_"%char ++ rest))
  ∧ camelcase (lit "a__b") = lit "aB"
  ∧ camelcase (lit "a__b") = camelcase (lit "a_b").
Proof.
  assert (Hrun : ∀ (pre rest : std_string) n,
    camelcase (pre ++ replicate (S n) "_"%char ++ rest)
    = camelcase pre ++ snake_to_camel true rest).
  { intros pre rest n. rewrite !camelcase_snake_to_camel.
    change (replicate (S n) "_"%char ++ rest)
      with ("_"%char :: (replicate n "_"%char ++ rest)).
    rewrite snake_to_camel_app_separator. f_equal.
    destruct n; [done|]. apply snake_to_camel_run. }
  split; [|split; [|by vm_compute]].
  - intros pre rest n c Hc.
    rewrite Hrun, snake_to_camel_after_separator by done.
    by rewrite !camelcase_snake_to_camel.
  - intros pre rest n m. by rewrite !Hrun.
Qed.

Lemma camelcase_underscore_run_witness :
  camelcase (lit "some" ++ replicate 3 "_"%char ++ "n"%char :: lit "ame")
  = lit "someName".
Proof.
  rewrite (proj1 camelcase_underscore_run
             (lit "some") (lit "ame") 2%nat "n"%char ltac:(discriminate)).
  vm_compute. reflexivity.
Defined.

(** ** The round trip *)

Lemma snake_to_camel_snake_tail rest :
  "_"%char ∉ rest → snake_to_camel false (snake_tail rest) = rest.
Proof.
  induction rest as [|c rest IH]; [done|].
  intros Hnot. apply not_elem_of_cons in Hnot as [Hc Hrest].
  assert (Ascii.eqb c "_" = false) as Hcb by (apply Ascii.eqb_neq; congruence).
  cbn [snake_tail]. destruct (isupper c) eqn:Hup.
  - cbn [snake_to_camel]. change (Ascii.eqb "_" "_") with true. cbn match.
    rewrite tolower_eqb_underscore, Hcb, toupper_tolower by done.
    by rewrite IH.
  - cbn [snake_to_camel]. rewrite Hcb. by rewrite IH.
Qed.

(** What [camelcase] emits: one character for each one that is not an
    underscore. *)
Lemma length_snake_to_camel flag s :
  length (snake_to_camel flag s) = length (filter (λ c, c ≠ "_"%char) s).
Proof.
  revert flag. induction s as [|c s IH]; intros flag; [done|].
  cbn [snake_to_camel]. destruct (Ascii.eqb_spec c "_") as [->|Hc].
  - rewrite filter_cons_False by (intros H; by apply H). apply IH.
  - rewrite filter_cons_True by done. destruct flag; cbn; by rewrite IH.
Qed.

Lemma length_filter_snake_tail s :
  length (filter (λ c, c ≠ "_"%char) (snake_tail s))
  = length (filter (λ c, c ≠ "_"%char) s).
Proof.
  induction s as [|c s IH]; [done|].
  cbn [snake_tail]. destruct (isupper c) eqn:Hup.
  - rewrite filter_cons_False by (intros H; by apply H).
    assert (c ≠ "_"%char) as Hc.
    { intros ->. by vm_compute in Hup. }
    rewrite !filter_cons_True; [cbn; by rewrite IH|done|].
    intros Hl. apply Hc. apply Ascii.eqb_eq.
    rewrite <- tolower_eqb_underscore. by apply Ascii.eqb_eq.
  - destruct (decide (c ≠ "_"%char)).
    + rewrite !filter_cons_True by done. cbn. by rewrite IH.
    + rewrite !filter_cons_False by done. by rewrite IH.
Qed.

Lemma same_but_first_case_length s r :
  same_but_first_case s r = true → length s = length r.
Proof.
  destruct s as [|c s], r as [|c' r]; try done.
  cbn. intros [_ Hr%bool_decide_eq_true]%andb_prop. by rewrite Hr.
Qed.

(** C1 as stated fails at "a_b": an identifier with an underscore in it
    does not survive the round trip, since [underscore] keeps the
    underscore and [camelcase] consumes it. *)
Lemma round_trip_counterexample :
  (1 ≤ length (lit "a_b"))%nat
  ∧ camelcase <$> underscore (lit "a_b") = Some (lit "aB")
  ∧ same_but_first_case (lit "a_b") (lit "aB") = false.
Proof. vm_compute. repeat split. lia. Qed.

(** C1, amended. For an identifier of length at least 1,
    [camelcase (underscore s)] is defined; it reproduces [s] apart from the
    case of the first character (it is [decapitalize s]) when [s] holds no
    underscore, and does not when [s] holds one. *)
Theorem round_trip_without_underscore (s : std_string) :
  (1 ≤ length s)%nat →
  ∃ r, camelcase <$> underscore s = Some r
    ∧ ("_"%char ∉ s →
         same_but_first_case s r = true ∧ decapitalize s = Some r)
    ∧ ("_"%char ∈ s → same_but_first_case s r = false).
Proof.
  destruct s as [|c rest]; [cbn; lia|]. intros _.
  rewrite underscore_cons. cbn [fmap option_fmap option_map].
  eexists; split; [reflexivity|]. rewrite camelcase_snake_to_camel. split.
  - intros Hnot. apply not_elem_of_cons in Hnot as [Hc Hrest].
    cbn [snake_to_camel].
    rewrite tolower_eqb_underscore, (proj2 (Ascii.eqb_neq c "_")) by congruence.
    rewrite snake_to_camel_snake_tail by done.
    split; [|reflexivity].
    cbn. rewrite tolower_tolower, !bool_decide_eq_true_2; done.
  - intros Hin. apply not_true_is_false. intros Hsame.
    apply same_but_first_case_length in Hsame.
    rewrite length_snake_to_camel in Hsame.
    assert (length (filter (λ c, c ≠ "_"%char)
                      (tolower c :: snake_tail rest))
            = length (filter (λ c, c ≠ "_"%char) (c :: rest))) as Hlen.
    { change (tolower c :: snake_tail rest)
        with ([tolower c] ++ snake_tail rest).
      change (c :: rest) with ([c] ++ rest).
      rewrite !filter_app, !length_app, length_filter_snake_tail. f_equal.
      destruct (Ascii.eqb_spec c "_") as [->|Hc]; [done|].
      rewrite !filter_cons_True; [done|done|].
      intros Hl. apply Hc, Ascii.eqb_eq.
      rewrite <- tolower_eqb_underscore. by apply Ascii.eqb_eq. }
    rewrite Hlen in Hsame.
    pose proof (length_filter_lt (λ c, c ≠ "_"%char) _ _ Hin) as Hlt.
    rewrite <- Hsame in Hlt. apply (Nat.lt_irrefl (length (c :: rest))).
    apply Hlt. intros H. by apply H.
Qed.

Lemma round_trip_without_underscore_witness :
  ∃ r, camelcase <$> underscore (lit "AMultiWord") = Some r
    ∧ same_but_first_case (lit "AMultiWord") r = true
    ∧ decapitalize (lit "AMultiWord") = Some r.
Proof.
  destruct (round_trip_without_underscore (lit "AMultiWord"))
    as (r & Hr & Hok & _); [vm_compute; lia|].
  exists r. split; [exact Hr|]. apply Hok.
  apply (bool_decide_unpack _). vm_compute. exact I.
Defined.

(** ** The output directory *)

(** C2 as stated fails at the output path "./" with the tag "gen-cpp": the
    directory is "./gen-cpp/", with no "/" of [get_out_dir]'s own between
    the two. *)
Lemma get_out_dir_counterexample :
  get_out_dir
    (with_out_dir_base_ (lit "gen-cpp")
       (new_t_generator {| name_ := lit "demo"; out_path_ := lit "./" |}))
  = lit "./gen-cpp/"
  ∧ lit "./gen-cpp/" ≠ lit "./" ++ lit "/" ++ lit "gen-cpp" ++ lit "/".
Proof. split; [by vm_compute|]. vm_compute. congruence. Qed.

(** C2, amended. The output directory is the program's output path
    immediately followed by the backend's base tag and a final "/".  It is
    root, "/", tag, "/" exactly when the output path is the root with its
    "/" already at the end; [get_out_dir] never adds a "/" of its own
    between path and tag. *)
Theorem get_out_dir_concatenation (g : t_generator) :
  get_out_dir g = get_out_path (program_ g) ++ out_dir_base_ g ++ lit "/"
  ∧ (∀ root, get_out_path (program_ g) = root ++ lit "/" →
       get_out_dir g = root ++ lit "/" ++ out_dir_base_ g ++ lit "/")
  ∧ get_out_dir g
    ≠ get_out_path (program_ g) ++ lit "/" ++ out_dir_base_ g ++ lit "/".
Proof.
  unfold get_out_dir. repeat split.
  - by rewrite <- (assoc_L (++)).
  - intros root ->. by rewrite <- !(assoc_L (++)).
  - intros Heq. apply (f_equal length) in Heq.
    rewrite !length_app in Heq. cbn in Heq. lia.
Qed.

Lemma get_out_dir_concatenation_witness :
  get_out_dir
    (with_out_dir_base_ (lit "gen-cpp")
       (new_t_generator {| name_ := lit "demo"; out_path_ := lit "out/" |}))
  = lit "out" ++ lit "/" ++ lit "gen-cpp" ++ lit "/".
Proof.
  exact (proj1 (proj2 (get_out_dir_concatenation
           (with_out_dir_base_ (lit "gen-cpp")
              (new_t_generator
                 {| name_ := lit "demo"; out_path_ := lit "out/" |}))))
           (lit "out") eq_refl).
Defined.

(** ** The default exception hook *)

(** C6. Whatever the backend, the default [generate_xception] gives for an
    exception declaration what the backend's [generate_struct] gives for
    it: the same new state, or the same failure. *)
Theorem generate_xception_forwards
    {t_typedef t_enum t_struct t_service backend : Type}
    `{!@t_generator_impl t_typedef t_enum t_struct t_service backend}
    (txception : t_struct) (st : t_generator * backend) :
  generate_xception txception st = generate_struct txception st.
Proof. reflexivity. Qed.

(** ** Temporary names *)

Lemma tmp_defined name g :
  (tmp_ g < INT_MAX)%Z →
  tmp name g = Some (name ++ ostream_int (tmp_ g), set_tmp_ (tmp_ g + 1) g).
Proof. intros Hlt. unfold tmp. by rewrite decide_True. Qed.

Lemma tmp_Some name g r g' :
  tmp name g = Some (r, g') →
  (tmp_ g < INT_MAX)%Z ∧ r = name ++ ostream_int (tmp_ g)
  ∧ g' = set_tmp_ (tmp_ g + 1) g.
Proof. unfold tmp. case_decide; naive_solver. Qed.

(** No method of the base class takes the counter back. *)
Lemma call_tmp_le m g g' : call m g = Some g' → (tmp_ g ≤ tmp_ g')%Z.
Proof.
  destruct m as [name| |]; cbn.
  - destruct (tmp name g) as [[r g1]|] eqn:Htmp; [|done].
    apply tmp_Some in Htmp as (_ & _ & ->). intros [= <-]. cbn. lia.
  - unfold indent_up. case_decide; [|done]. by intros [= <-].
  - unfold indent_down. case_decide; [|done]. by intros [= <-].
Qed.

Lemma calls_tmp_le ms :
  ∀ g g', calls ms g = Some g' → (tmp_ g ≤ tmp_ g')%Z.
Proof.
  induction ms as [|m ms IH]; intros g g'; cbn.
  - by intros [= <-].
  - destruct (call m g) as [g1|] eqn:Hcall; [|done]. cbn. intros Hrest.
    apply call_tmp_le in Hcall. apply IH in Hrest. lia.
Qed.

(** The decimal rendering tells any two integers apart. *)
Lemma ostream_int_inj n m : ostream_int n = ostream_int m → n = m.
Proof.
  assert (Hnorm : ∀ z, Z.to_int z ≠ Decimal.Pos Decimal.Nil
                       ∧ Z.to_int z ≠ Decimal.Neg Decimal.Nil).
  { intros [|p|p]; cbn; split; try discriminate;
      intros [= Hp]; by apply (Unsigned.to_uint_nonnil p). }
  unfold ostream_int, lit. intros Heq.
  apply (f_equal string_of_list_ascii) in Heq.
  rewrite !string_of_list_ascii_of_string in Heq.
  apply (f_equal NilZero.int_of_string) in Heq.
  rewrite !NilZero.isi in Heq by apply Hnorm.
  apply DecimalZ.to_int_inj. congruence.
Qed.

(** C5. [tmp] returns the prefix followed by the decimal rendering of the
    counter and adds one to the counter.  There is one counter for the
    instance, whatever the prefix: a value handed out is smaller than every
    value handed out later, whatever the instance is asked in between, so
    no value and, for one prefix, no name comes twice.  On a fresh instance
    "x", "x" and then any prefix [p] give "x0", "x1" and [p] followed by
    "2". *)
Theorem tmp_counter :
  (∀ name g, (tmp_ g < INT_MAX)%Z →
     tmp name g
     = Some (name ++ ostream_int (tmp_ g), set_tmp_ (tmp_ g + 1) g))
  ∧ (∀ name g r g1 ms g2 name' r' g3,
       tmp name g = Some (r, g1) →
       calls ms g1 = Some g2 →
       tmp name' g2 = Some (r', g3) →
       (tmp_ g < tmp_ g2)%Z
       ∧ r = name ++ ostream_int (tmp_ g)
       ∧ r' = name' ++ ostream_int (tmp_ g2)
       ∧ (name = name' → r ≠ r'))
  ∧ (∀ program p, ∃ g1 g2 g3,
       tmp (lit "x") (new_t_generator program) = Some (lit "x0", g1)
       ∧ tmp (lit "x") g1 = Some (lit "x1", g2)
       ∧ tmp p g2 = Some (p ++ lit "2", g3)).
Proof.
  split; [exact tmp_defined|]. split.
  - intros name g r g1 ms g2 name' r' g3 H1 Hms H2.
    apply tmp_Some in H1 as (_ & -> & ->).
    apply tmp_Some in H2 as (_ & -> & _).
    apply calls_tmp_le in Hms. cbn in Hms.
    repeat split; [lia|]. intros <- Heq%app_inv_head%ostream_int_inj. lia.
  - intros program p. do 3 eexists.
    split; [|split]; (rewrite tmp_defined; [reflexivity|by cbn]).
Qed.

Lemma tmp_counter_witness :
  ∃ g1 g2 g3,
    tmp (lit "a") (new_t_generator {| name_ := []; out_path_ := [] |})
    = Some (lit "a0", g1)
    ∧ calls [call_indent_up; call_tmp (lit "b")] g1 = Some g2
    ∧ tmp (lit "a") g2 = Some (lit "a2", g3)
    ∧ (tmp_ (new_t_generator {| name_ := []; out_path_ := [] |}) < tmp_ g2)%Z
    ∧ lit "a0" ≠ lit "a2".
Proof.
  pose (g0 := new_t_generator {| name_ := []; out_path_ := [] |}).
  pose (g1 := set_tmp_ 1 g0).
  pose (g2 := set_tmp_ 2 (set_indent_ 1 g1)).
  pose (g3 := set_tmp_ 3 g2).
  exists g1, g2, g3.
  assert (H1 : tmp (lit "a") g0 = Some (lit "a0", g1))
    by exact (proj1 tmp_counter (lit "a") g0 eq_refl).
  assert (Hms : calls [call_indent_up; call_tmp (lit "b")] g1 = Some g2)
    by reflexivity.
  assert (H2 : tmp (lit "a") g2 = Some (lit "a2", g3))
    by exact (proj1 tmp_counter (lit "a") g2 eq_refl).
  destruct (proj1 (proj2 tmp_counter) _ _ _ _ _ _ _ _ _ H1 Hms H2)
    as (Hlt & _ & _ & Hne).
  repeat split; try assumption. by apply Hne.
Defined.

(** ** Indentation *)

Lemma indent_loop_spec level i ind :
  indent_loop level i ind
  = ind ++ concat (replicate (Z.to_nat (level - i)) (lit "  ")).
Proof.
  funelim (indent_loop level i ind).
  - match goal with
    | IH : indent_loop _ _ _ = _ ++ _ |- _ => rewrite IH
    end.
    replace (Z.to_nat (level - i)) with (S (Z.to_nat (level - (i + 1))))
      by lia.
    cbn [replicate concat]. by rewrite <- (assoc_L (++)).
  - replace (Z.to_nat (level - i)) with 0%nat by lia.
    cbn. by rewrite app_nil_r.
Qed.

Lemma indent_down_defined g :
  (INT_MIN < indent_ g)%Z →
  indent_down g = Some (set_indent_ (indent_ g - 1) g).
Proof. intros Hlt. unfold indent_down. by rewrite decide_True. Qed.

Lemma set_indent__same v g : v = indent_ g → set_indent_ v g = g.
Proof. intros ->. by destruct g. Qed.

Lemma set_indent__twice v w g :
  set_indent_ v (set_indent_ w g) = set_indent_ v g.
Proof. reflexivity. Qed.

Lemma indent_down_repeated n : ∀ g,
  (INT_MIN ≤ indent_ g - Z.of_nat n)%Z →
  calls (replicate n call_indent_down) g
  = Some (set_indent_ (indent_ g - Z.of_nat n) g).
Proof.
  induction n as [|n IH]; intros g Hn.
  - cbn [replicate calls]. by rewrite set_indent__same by lia.
  - cbn [replicate calls call]. rewrite indent_down_defined by lia.
    cbn [mbind option_bind]. rewrite IH by (cbn; lia).
    rewrite set_indent__twice. cbn [indent_ set_indent_]. do 2 f_equal. lia.
Qed.

(** C10. [indent_down] takes one off the level whatever the level is, zero
    and below included (only the smallest [int] has nothing below it), so
    calls without a matching [indent_up] take the level of a fresh
    instance below zero.  [indent] is defined at every level: it is the
    empty string at level zero and below, and two spaces repeated level
    times above. *)
Theorem indent_down_unclamped :
  (∀ g, (INT_MIN < indent_ g)%Z →
     indent_down g = Some (set_indent_ (indent_ g - 1) g))
  ∧ (∀ program n, (Z.of_nat n ≤ 2147483648)%Z →
       ∃ g, calls (replicate n call_indent_down) (new_t_generator program)
            = Some g
          ∧ indent_ g = (- Z.of_nat n)%Z)
  ∧ (∀ g, (indent_ g ≤ 0)%Z → indent g = [])
  ∧ (∀ g, indent g = concat (replicate (Z.to_nat (indent_ g)) (lit "  "))).
Proof.
  split; [exact indent_down_defined|]. split; [|split].
  - intros program n Hn. eexists. split.
    + apply indent_down_repeated. cbn. unfold INT_MIN. lia.
    + reflexivity.
  - intros g Hle. unfold indent. rewrite indent_loop_spec.
    by replace (Z.to_nat (indent_ g - 0)) with 0%nat by lia.
  - intros g. unfold indent. rewrite indent_loop_spec, Z.sub_0_r. done.
Qed.

Lemma indent_down_unclamped_witness :
  ∃ g1 g2,
    indent_down (new_t_generator {| name_ := []; out_path_ := [] |}) = Some g1
    ∧ indent_ g1 = (-1)%Z
    ∧ calls (replicate 3 call_indent_down)
        (new_t_generator {| name_ := []; out_path_ := [] |}) = Some g2
    ∧ indent_ g2 = (-3)%Z
    ∧ indent g2 = [].
Proof.
  pose (g0 := new_t_generator {| name_ := []; out_path_ := [] |}).
  destruct (proj1 (proj2 indent_down_unclamped) (program_ g0) 3%nat)
    as (g2 & Hcalls & Hlevel); [vm_compute; congruence|].
  exists (set_indent_ (-1) g0), g2.
  split; [exact (proj1 indent_down_unclamped g0 eq_refl)|].
  split; [reflexivity|]. split; [exact Hcalls|]. split; [exact Hlevel|].
  apply (proj1 (proj2 (proj2 indent_down_unclamped))).
  rewrite Hlevel. vm_compute. congruence.
Defined.

(** ** Typedef resolution *)

Lemma typedef_chain_end types type n last :
  typedef_chain types type n last →
  ∃ name, types !! last = Some (NotTypedef name).
Proof. induction 1; eauto. Qed.

Lemma get_true_type_chain types type n last :
  typedef_chain types type n last →
  ∀ fuel, (n < fuel)%nat → get_true_type fuel types type = Returns last.
Proof.
  induction 1 as [type name Hty|type type' n last Hty _ IH]; intros fuel Hfuel.
  - destruct fuel; [lia|]. cbn. by rewrite Hty.
  - destruct fuel; [lia|]. cbn. rewrite Hty. cbn. apply IH. lia.
Qed.

(** What [get_true_type] returns, it reached along a typedef chain. *)
Lemma get_true_type_Returns fuel : ∀ types type last,
  get_true_type fuel types type = Returns last →
  ∃ n, (n < fuel)%nat ∧ typedef_chain types type n last.
Proof.
  induction fuel as [|fuel IH]; intros types type last; cbn; [done|].
  destruct (types !! type) as [[type'|name]|] eqn:Hty; cbn; [|..|done].
  - intros (n & Hn & Hchain)%IH. exists (S n). split; [lia|].
    by eapply chain_link.
  - intros [= <-]. exists 0%nat. split; [lia|]. by eapply chain_end.
Qed.

(** A typedef of itself: the loop never leaves it. *)
Lemma get_true_type_cycle types type fuel :
  types !! type = Some (Typedef type) →
  get_true_type fuel types type = Unfinished.
Proof.
  intros Hty. induction fuel as [|fuel IH]; [done|]. cbn. by rewrite Hty.
Qed.

(** C7. When the typedef chain from a type is finite, with [n] links up to
    a type that is not a typedef, [get_true_type] leaves its loop after
    [n + 1] tests and returns that type; so it does on three nested
    typedefs. *)
Theorem get_true_type_terminates :
  (∀ types type n last,
     typedef_chain types type n last →
     (∃ name, types !! last = Some (NotTypedef name))
     ∧ ∀ fuel, (n < fuel)%nat →
         get_true_type fuel types type = Returns last)
  ∧ (∀ (types : gmap positive t_type) a b c d name,
       types !! a = Some (Typedef b) →
       types !! b = Some (Typedef c) →
       types !! c = Some (Typedef d) →
       types !! d = Some (NotTypedef name) →
       ∀ fuel, (3 < fuel)%nat → get_true_type fuel types a = Returns d).
Proof.
  split.
  - intros types type n last Hchain.
    eauto using typedef_chain_end, get_true_type_chain.
  - intros types a b c d name Ha Hb Hc Hd.
    apply get_true_type_chain.
    eauto using typedef_chain.
Qed.

Lemma get_true_type_terminates_witness :
  get_true_type 4
    (<[1%positive := Typedef 2]>
       (<[2%positive := Typedef 3]>
          (<[3%positive := Typedef 4]>
             (<[4%positive := NotTypedef (lit "i32")]> ∅))))
    1%positive
  = Returns 4%positive
  ∧ get_true_type 2
      (<[7%positive := Typedef 9]>
         (<[9%positive := NotTypedef (lit "string")]> ∅))
      7%positive
    = Returns 9%positive.
Proof.
  split.
  - apply (proj2 get_true_type_terminates _ 1 2 3 4 (lit "i32"))%positive;
      (reflexivity || lia).
  - refine (proj2 (proj1 get_true_type_terminates _ 7 1%nat 9 _)%positive
              2%nat _); [|lia].
    apply (chain_link _ 7 9 0 9)%positive; [reflexivity|].
    apply (chain_end _ 9%positive (lit "string")). reflexivity.
Defined.

(** * Further properties *)

(** ** More about characters *)

Lemma tolower_toupper c : isupper c = false → tolower (toupper c) = c.
Proof. by_cases_on_char c. Qed.

Lemma toupper_tolower_inv c : toupper (tolower c) = c → islower c = false.
Proof. by_cases_on_char c. Qed.

Lemma tolower_toupper_inv c : tolower (toupper c) = c → isupper c = false.
Proof. by_cases_on_char c. Qed.

Lemma toupper_tolower_not_lower c :
  islower c = false → toupper (tolower c) = c.
Proof. by_cases_on_char c. Qed.

Lemma toupper_toupper c : toupper (toupper c) = toupper c.
Proof. by_cases_on_char c. Qed.

Lemma tolower_toupper_tolower c : tolower (toupper c) = tolower c.
Proof. by_cases_on_char c. Qed.

Lemma toupper_tolower_toupper c : toupper (tolower c) = toupper c.
Proof. by_cases_on_char c. Qed.

Lemma toupper_upper c : isupper c = true → toupper c = c.
Proof. by_cases_on_char c. Qed.

Lemma isupper_toupper c : islower c = true → isupper (toupper c) = true.
Proof. by_cases_on_char c. Qed.

Lemma tolower_toupper_lower c : islower c = true → tolower (toupper c) = c.
Proof. by_cases_on_char c. Qed.

Lemma islower_not_underscore c : islower c = true → Ascii.eqb c "_" = false.
Proof. by_cases_on_char c. Qed.

Lemma isupper_not_underscore c : isupper c = true → Ascii.eqb c "_" = false.
Proof. by_cases_on_char c. Qed.

Lemma toupper_eqb_underscore c :
  Ascii.eqb (toupper c) "_" = Ascii.eqb c "_".
Proof. by_cases_on_char c. Qed.

(** ** [lowercase] *)

Lemma lowercase_loop_done in_ i :
  (length in_ ≤ i)%nat → lowercase_loop in_ i = in_.
Proof.
  intros Hi. funelim (lowercase_loop in_ i); try lia. reflexivity.
Qed.

Lemma lowercase_loop_step in_ i c :
  in_ !! i = Some c →
  lowercase_loop in_ i = lowercase_loop (<[i := tolower c]> in_) (S i).
Proof.
  intros Hc. pose proof (lookup_lt_Some _ _ _ Hc) as Hlt.
  rewrite <- (list_lookup_total_correct _ _ _ Hc).
  funelim (lowercase_loop in_ i); try lia. congruence.
Qed.

Lemma lowercase_loop_spec suf : ∀ pre,
  lowercase_loop (pre ++ suf) (length pre) = pre ++ (tolower <$> suf).
Proof.
  induction suf as [|c suf IH]; intros pre.
  - rewrite app_nil_r. cbn. rewrite app_nil_r. by apply lowercase_loop_done.
  - rewrite (lowercase_loop_step _ _ c) by (by apply list_lookup_middle).
    replace (<[length pre := tolower c]> (pre ++ c :: suf))
      with ((pre ++ [tolower c]) ++ suf).
    + replace (S (length pre)) with (length (pre ++ [tolower c]))
        by (rewrite length_app; cbn; lia).
      rewrite IH. by rewrite <- (assoc_L (++)).
    + rewrite <- (assoc_L (++)). cbn.
      rewrite <- (Nat.add_0_r (length pre)). by rewrite insert_app_r.
Qed.

Lemma lowercase_fmap in_ : lowercase in_ = tolower <$> in_.
Proof. apply (lowercase_loop_spec in_ []). Qed.

(** X1. [lowercase] is defined on every string, the empty one included:
    its loop with the in-place writes lowers each character where it
    stands, so the result has the length of the input and at each index
    the lowercase form of the input's character. *)
Theorem lowercase_each_character (in_ : std_string) :
  lowercase in_ = tolower <$> in_
  ∧ length (lowercase in_) = length in_
  ∧ ∀ i, lowercase in_ !! i = tolower <$> in_ !! i.
Proof.
  rewrite lowercase_fmap. split; [done|]. split.
  - apply length_fmap.
  - intros i. apply list_lookup_fmap.
Qed.

(** X2. Nothing uppercase is left in the result of [lowercase], and
    lowering a second time changes nothing. *)
Theorem lowercase_idempotent (in_ : std_string) :
  Forall (λ c, isupper c = false) (lowercase in_)
  ∧ lowercase (lowercase in_) = lowercase in_.
Proof.
  rewrite !lowercase_fmap. split.
  - apply Forall_fmap, Forall_true. intros c. apply isupper_tolower.
  - rewrite <- list_fmap_compose. apply list_fmap_ext.
    intros _ c _. apply tolower_tolower.
Qed.

(** ** [capitalize] and [decapitalize] together *)

(** X3. Of [capitalize] and [decapitalize] the one applied last wins, on
    every string (on the empty one neither is defined): each is idempotent
    and each undoes nothing of the other beyond the first character's
    case. *)
Theorem capitalize_decapitalize_last_wins (in_ : std_string) :
  capitalize in_ ≫= decapitalize = decapitalize in_
  ∧ decapitalize in_ ≫= capitalize = capitalize in_
  ∧ capitalize in_ ≫= capitalize = capitalize in_
  ∧ decapitalize in_ ≫= decapitalize = decapitalize in_.
Proof.
  destruct in_ as [|c rest]; [done|]. cbn.
  by rewrite tolower_toupper_tolower, toupper_tolower_toupper,
    toupper_toupper, tolower_tolower.
Qed.

(** X4. [decapitalize] after [capitalize] gives the identifier back
    exactly when its first character is not an uppercase letter, and
    [capitalize] after [decapitalize] exactly when it is not a lowercase
    letter. *)
Theorem capitalize_decapitalize_round_trip (c : ascii) (rest : std_string) :
  (capitalize (c :: rest) ≫= decapitalize = Some (c :: rest)
   ↔ isupper c = false)
  ∧ (decapitalize (c :: rest) ≫= capitalize = Some (c :: rest)
     ↔ islower c = false).
Proof.
  cbn. split; split.
  - intros [= Hc]. by apply tolower_toupper_inv.
  - intros Hc. by rewrite tolower_toupper.
  - intros [= Hc]. by apply toupper_tolower_inv.
  - intros Hc. by rewrite toupper_tolower_not_lower.
Qed.

(** ** The shape of what [underscore] returns *)

Lemma snake_tail_app s1 s2 :
  snake_tail (s1 ++ s2) = snake_tail s1 ++ snake_tail s2.
Proof.
  induction s1 as [|c s1 IH]; [done|].
  cbn [app snake_tail]. rewrite IH. by destruct (isupper c).
Qed.

Lemma snake_tail_no_upper s :
  Forall (λ c, isupper c = false) (snake_tail s).
Proof.
  induction s as [|c s IH]; [constructor|].
  cbn [snake_tail]. destruct (isupper c) eqn:Hup.
  - by repeat constructor; try apply isupper_tolower.
  - by constructor.
Qed.

Lemma snake_tail_id s :
  Forall (λ c, isupper c = false) s → snake_tail s = s.
Proof.
  induction 1 as [|c s Hc _ IH]; [done|].
  cbn [snake_tail]. by rewrite Hc, IH.
Qed.

Lemma length_snake_tail s :
  length (snake_tail s)
  = (length s + length (filter (λ c, isupper c = true) s))%nat.
Proof.
  induction s as [|c s IH]; [done|].
  cbn [snake_tail]. destruct (isupper c) eqn:Hup.
  - rewrite filter_cons_True by done. cbn. rewrite IH. lia.
  - rewrite filter_cons_False by congruence. cbn. by rewrite IH.
Qed.

(** X5. What [underscore] returns for a non-empty identifier holds no
    uppercase character: [lowercase] leaves it as it is. *)
Theorem underscore_no_uppercase (c : ascii) (rest : std_string) :
  ∃ r, underscore (c :: rest) = Some r
    ∧ Forall (λ c, isupper c = false) r
    ∧ lowercase r = r.
Proof.
  eexists. split; [apply underscore_cons|].
  assert (Forall (λ c, isupper c = false) (tolower c :: snake_tail rest))
    as Hlow by (constructor; [apply isupper_tolower|apply snake_tail_no_upper]).
  split; [done|]. rewrite lowercase_fmap.
  rewrite <- (list_fmap_id (tolower c :: snake_tail rest)) at 2.
  apply Forall_fmap_ext_1. eapply Forall_impl; [exact Hlow|].
  intros x Hx. by apply tolower_not_upper.
Qed.

(** X6. [underscore] is idempotent: applied to its own result it returns
    that result. *)
Theorem underscore_idempotent (c : ascii) (rest : std_string) :
  ∃ r, underscore (c :: rest) = Some r ∧ underscore r = Some r.
Proof.
  eexists. split; [apply underscore_cons|].
  rewrite underscore_cons, tolower_tolower.
  by rewrite (snake_tail_id _ (snake_tail_no_upper rest)).
Qed.

(** X7. [underscore] lengthens a non-empty identifier by one character
    for each uppercase character after the first, and by nothing else. *)
Theorem underscore_length (c : ascii) (rest : std_string) :
  ∃ r, underscore (c :: rest) = Some r
    ∧ length r
      = (length (c :: rest)
         + length (filter (λ c, isupper c = true) rest))%nat.
Proof.
  eexists. split; [apply underscore_cons|].
  cbn [length]. by rewrite length_snake_tail.
Qed.

(** X8. [underscore] does not tell an uppercase letter from a separator
    followed by the lowercase letter, nor the case of the first character:
    identifiers that differ in nothing else get the same result. *)
Theorem underscore_collision :
  (∀ c (pre suf : std_string) u,
     isupper u = true →
     underscore (c :: pre ++ u :: suf)
     = underscore (c :: pre ++ "_"%char :: tolower u :: suf))
  ∧ (∀ c (rest : std_string),
       underscore (c :: rest) = underscore (tolower c :: rest)).
Proof.
  split.
  - intros c pre suf u Hu. rewrite !underscore_cons, !snake_tail_app.
    cbn [snake_tail]. rewrite Hu, isupper_tolower.
    change (isupper "_") with false. reflexivity.
  - intros c rest. by rewrite !underscore_cons, tolower_tolower.
Qed.

Lemma underscore_collision_witness :
  underscore (lit "userId") = underscore (lit "user_id")
  ∧ underscore (lit "userId") = Some (lit "user_id").
Proof.
  split; [|by vm_compute].
  exact (proj1 underscore_collision "u"%char (lit "ser") (lit "d") "I"%char
           eq_refl).
Defined.

(** ** The shape of what [camelcase] returns *)

Lemma snake_to_camel_no_underscore flag s :
  "_"%char ∉ snake_to_camel flag s.
Proof.
  revert flag. induction s as [|c s IH]; intros flag; [apply not_elem_of_nil|].
  cbn [snake_to_camel]. destruct (Ascii.eqb c "_") eqn:Hc; [apply IH|].
  destruct flag; apply not_elem_of_cons; (split; [|apply IH]).
  - intros Heq. rewrite <- toupper_eqb_underscore in Hc.
    rewrite <- Heq in Hc. by vm_compute in Hc.
  - intros Heq. rewrite <- Heq in Hc. by vm_compute in Hc.
Qed.

Lemma snake_to_camel_id s :
  "_"%char ∉ s → snake_to_camel false s = s.
Proof.
  induction s as [|c s IH]; [done|].
  intros [Hc Hs]%not_elem_of_cons. cbn [snake_to_camel].
  rewrite (proj2 (Ascii.eqb_neq c "_")) by congruence. by rewrite IH.
Qed.

(** X9. What [camelcase] returns holds no underscore, for every input;
    so [camelcase] is idempotent. *)
Theorem camelcase_no_underscore (in_ : std_string) :
  ("_"%char ∉ camelcase in_)
  ∧ camelcase (camelcase in_) = camelcase in_.
Proof.
  rewrite !camelcase_snake_to_camel. split.
  - apply snake_to_camel_no_underscore.
  - apply snake_to_camel_id, snake_to_camel_no_underscore.
Qed.

(** X10. [camelcase] emits one character for each character of the input
    that is not an underscore, so it never lengthens a string; it returns
    its input unchanged exactly when the input holds no underscore. *)
Theorem camelcase_length (in_ : std_string) :
  length (camelcase in_) = length (filter (λ c, c ≠ "_"%char) in_)
  ∧ (length (camelcase in_) ≤ length in_)%nat
  ∧ (camelcase in_ = in_ ↔ "_"%char ∉ in_).
Proof.
  rewrite !camelcase_snake_to_camel, length_snake_to_camel.
  split; [done|]. split; [apply length_filter|]. split.
  - intros <-. apply snake_to_camel_no_underscore.
  - apply snake_to_camel_id.
Qed.

Lemma snake_to_camel_snake_tail_any flag s :
  snake_to_camel flag (snake_tail s) = snake_to_camel flag s.
Proof.
  revert flag. induction s as [|c s IH]; intros flag; [done|].
  cbn [snake_tail]. destruct (isupper c) eqn:Hup.
  - cbn [snake_to_camel]. change (Ascii.eqb "_" "_") with true. cbn match.
    rewrite tolower_eqb_underscore, (isupper_not_underscore c Hup).
    rewrite toupper_tolower, toupper_upper, IH by done.
    by destruct flag.
  - cbn [snake_to_camel]. by rewrite !IH.
Qed.

(** X11. On every non-empty identifier, with or without underscores,
    [camelcase] after [underscore] is [camelcase] after [decapitalize]:
    the separators that [underscore] puts in are exactly undone. *)
Theorem camelcase_underscore_decapitalize (c : ascii) (rest : std_string) :
  camelcase <$> underscore (c :: rest)
  = camelcase <$> decapitalize (c :: rest).
Proof.
  rewrite underscore_cons. cbn. rewrite !camelcase_snake_to_camel.
  cbn [snake_to_camel]. f_equal.
  destruct (Ascii.eqb (tolower c) "_"), (snake_to_camel_snake_tail_any true rest),
    (snake_to_camel_snake_tail_any false rest); reflexivity.
Qed.

(** ** From snake case to camel case and back *)

Lemma snake_tail_snake_to_camel n : ∀ s,
  (length s ≤ n)%nat → snake_case_tail s = true →
  snake_tail (snake_to_camel false s) = s.
Proof.
  induction n as [|n IH]; intros [|c s] Hlen Hok; try done;
    cbn in Hlen; [lia|].
  cbn [snake_case_tail] in Hok. cbn [snake_to_camel].
  destruct (Ascii.eqb_spec c "_") as [->|Hc].
  - destruct s as [|x s]; [done|].
    apply andb_prop in Hok as [Hx Hok].
    rewrite snake_to_camel_after_separator
      by (intros ->; by vm_compute in Hx).
    cbn [snake_tail]. rewrite isupper_toupper, tolower_toupper_lower by done.
    rewrite IH; [done| cbn in Hlen; lia | done].
  - apply andb_prop in Hok as [Hup%negb_true_iff Hok].
    cbn [snake_tail]. rewrite Hup, IH; [done|lia|done].
Qed.

(** X12. The round trip the other way: [underscore] after [camelcase]
    gives a name in snake case back as it was.  Snake case: the name starts
    with a character that is neither an underscore nor uppercase, holds no
    uppercase character, and each underscore is followed by a lowercase
    letter. *)
Theorem underscore_camelcase_round_trip (s : std_string) :
  snake_case s = true → underscore (camelcase s) = Some s.
Proof.
  destruct s as [|c rest]; [done|]. cbn [snake_case].
  intros [[Hc%negb_true_iff Hup%negb_true_iff]%andb_prop Hok]%andb_prop.
  rewrite camelcase_snake_to_camel. cbn [snake_to_camel]. rewrite Hc.
  rewrite underscore_cons, (tolower_not_upper c Hup).
  by rewrite (snake_tail_snake_to_camel (length rest)).
Qed.

Lemma underscore_camelcase_round_trip_witness :
  camelcase (lit "a_multi_word") = lit "aMultiWord"
  ∧ underscore (camelcase (lit "a_multi_word")) = Some (lit "a_multi_word").
Proof.
  split; [by vm_compute|].
  apply (underscore_camelcase_round_trip (lit "a_multi_word")).
  vm_compute. reflexivity.
Defined.

(** ** Runs of calls on one instance *)

Lemma indent_up_Some g g' :
  indent_up g = Some g' →
  (indent_ g < INT_MAX)%Z ∧ g' = set_indent_ (indent_ g + 1) g.
Proof. unfold indent_up. case_decide; naive_solver. Qed.

Lemma indent_down_Some g g' :
  indent_down g = Some g' →
  (INT_MIN < indent_ g)%Z ∧ g' = set_indent_ (indent_ g - 1) g.
Proof. unfold indent_down. case_decide; naive_solver. Qed.

(** X13. [indent_down] undoes [indent_up] and [indent_up] undoes
    [indent_down]: wherever the first is defined the second is, and gives
    the instance back as it was. *)
Theorem indent_up_down_inverse (g g' : t_generator) :
  is_int (indent_ g) →
  (indent_up g = Some g' → indent_down g' = Some g)
  ∧ (indent_down g = Some g' → indent_up g' = Some g).
Proof.
  unfold is_int, INT_MIN, INT_MAX. intros Hint. split.
  - intros [Hlt ->]%indent_up_Some. unfold indent_down.
    rewrite decide_True by (cbn; unfold INT_MIN; lia).
    rewrite set_indent__twice. f_equal. apply set_indent__same. cbn. lia.
  - intros [Hlt ->]%indent_down_Some. unfold indent_up.
    rewrite decide_True by (cbn; unfold INT_MAX; lia).
    rewrite set_indent__twice. f_equal. apply set_indent__same. cbn. lia.
Qed.

Lemma indent_up_down_inverse_witness :
  ∃ g', indent_up (new_t_generator {| name_ := []; out_path_ := [] |})
        = Some g'
      ∧ indent_down g'
        = Some (new_t_generator {| name_ := []; out_path_ := [] |}).
Proof.
  eexists. split; [reflexivity|].
  refine (proj1 (indent_up_down_inverse
                   (new_t_generator {| name_ := []; out_path_ := [] |})
                   _ _) eq_refl).
  vm_compute. split; congruence.
Defined.

Lemma call_effect m g g' :
  call m g = Some g' →
  indent_ g' = (indent_ g + indent_change m)%Z
  ∧ tmp_ g' = (tmp_ g + tmp_change m)%Z
  ∧ program_ g' = program_ g ∧ program_name_ g' = program_name_ g
  ∧ service_name_ g' = service_name_ g ∧ out_dir_base_ g' = out_dir_base_ g
  ∧ escape_ g' = escape_ g.
Proof.
  destruct m as [name| |]; cbn.
  - destruct (tmp name g) as [[r g1]|] eqn:Htmp; [|done].
    apply tmp_Some in Htmp as (_ & _ & ->). intros [= <-]. cbn.
    repeat split; lia.
  - intros [_ ->]%indent_up_Some. cbn. repeat split; lia.
  - intros [_ ->]%indent_down_Some. cbn. repeat split; lia.
Qed.

(** X14. Over any run of calls of [tmp], [indent_up] and [indent_down]
    that is defined, the indent level moves by the number of [indent_up]
    minus the number of [indent_down], the temp counter by the number of
    [tmp], and nothing else of the instance changes: program, names,
    output base and escape table stay as they were. *)
Theorem calls_effect (ms : list method) (g g' : t_generator) :
  calls ms g = Some g' →
  indent_ g' = (indent_ g + total_change indent_change ms)%Z
  ∧ tmp_ g' = (tmp_ g + total_change tmp_change ms)%Z
  ∧ program_ g' = program_ g ∧ program_name_ g' = program_name_ g
  ∧ service_name_ g' = service_name_ g ∧ out_dir_base_ g' = out_dir_base_ g
  ∧ escape_ g' = escape_ g.
Proof.
  revert g. induction ms as [|m ms IH]; intros g; cbn [calls].
  - intros [= <-]. cbn. repeat split; lia.
  - destruct (call m g) as [g1|] eqn:Hcall; [|done]. cbn. intros Hrest.
    apply call_effect in Hcall as (Hi & Ht & Hp & Hn & Hs & Ho & He).
    apply IH in Hrest as (Hi' & Ht' & Hp' & Hn' & Hs' & Ho' & He').
    fold (total_change indent_change ms). fold (total_change tmp_change ms).
    repeat split; try congruence; lia.
Qed.

Lemma calls_effect_witness :
  ∃ g', calls [call_indent_up; call_tmp (lit "x"); call_indent_up;
               call_indent_down]
          (new_t_generator {| name_ := lit "demo"; out_path_ := lit "./" |})
        = Some g'
      ∧ indent_ g' = 1%Z ∧ tmp_ g' = 1%Z
      ∧ indent g' = lit "  ".
Proof.
  eexists. split; [reflexivity|].
  destruct (calls_effect
              [call_indent_up; call_tmp (lit "x"); call_indent_up;
               call_indent_down]
              (new_t_generator
                 {| name_ := lit "demo"; out_path_ := lit "./" |})
              _ eq_refl) as (Hi & Ht & _).
  split; [exact Hi|]. split; [exact Ht|]. by vm_compute.
Defined.

Lemma calls_defined ms : ∀ g,
  (INT_MIN ≤ indent_ g - Z.of_nat (length ms))%Z →
  (indent_ g + Z.of_nat (length ms) ≤ INT_MAX)%Z →
  (tmp_ g + Z.of_nat (length ms) ≤ INT_MAX)%Z →
  is_Some (calls ms g).
Proof.
  induction ms as [|m ms IH]; intros g Hlo Hhi Htmp; [by eexists|].
  cbn [length] in Hlo, Hhi, Htmp. cbn [calls].
  assert (is_Some (call m g)) as [g1 Hcall].
  { destruct m as [name| |]; cbn.
    - rewrite tmp_defined by lia. by eexists.
    - unfold indent_up. rewrite decide_True by lia. by eexists.
    - unfold indent_down. rewrite decide_True by lia. by eexists. }
  rewrite Hcall. cbn.
  apply call_effect in Hcall as (Hi & Ht & _).
  apply IH; destruct m; cbn in Hi, Ht; lia.
Qed.

(** X15. On a fresh instance no run of at most [INT_MAX] calls of [tmp],
    [indent_up] and [indent_down], in any order, meets a signed
    overflow. *)
Theorem calls_defined_fresh (program : t_program) (ms : list method) :
  (Z.of_nat (length ms) ≤ INT_MAX)%Z →
  is_Some (calls ms (new_t_generator program)).
Proof.
  intros Hlen. apply calls_defined; cbn; unfold INT_MIN, INT_MAX in *; lia.
Qed.

Lemma calls_defined_fresh_witness :
  is_Some (calls [call_indent_down; call_indent_down; call_tmp (lit "t");
                  call_indent_up]
             (new_t_generator {| name_ := []; out_path_ := [] |})).
Proof. apply calls_defined_fresh. vm_compute. congruence. Defined.

(** ** The indentation prefix *)

Lemma indent_replicate g :
  indent g = concat (replicate (Z.to_nat (indent_ g)) (lit "  ")).
Proof. unfold indent. by rewrite indent_loop_spec, Z.sub_0_r. Qed.

(** X16. The prefix [indent] returns consists of spaces only, and has
    twice as many of them as the level says, none at a level below zero. *)
Theorem indent_spaces (g : t_generator) :
  Forall (λ c, c = " "%char) (indent g)
  ∧ Z.of_nat (length (indent g)) = (2 * Z.max 0 (indent_ g))%Z.
Proof.
  rewrite indent_replicate.
  assert (Z.of_nat (Z.to_nat (indent_ g)) = Z.max 0 (indent_ g)) as Hn
    by lia.
  revert Hn. generalize (Z.to_nat (indent_ g)). intros n Hn. split.
  - clear Hn. induction n as [|n IH]; [constructor|].
    cbn [replicate concat]. by repeat constructor.
  - assert (length (concat (replicate n (lit "  "))) = (2 * n)%nat) as ->.
    { clear Hn. induction n as [|n IH]; [done|].
      cbn [replicate concat]. rewrite length_app, IH. cbn. lia. }
    lia.
Qed.

(** X17. At a level that is not negative, [indent_up] lengthens the prefix
    by exactly two spaces and [indent_down], from a level above zero,
    shortens it to what it was. *)
Theorem indent_after_indent_up (g g' : t_generator) :
  (0 ≤ indent_ g)%Z → indent_up g = Some g' →
  indent g' = indent g ++ lit "  "
  ∧ (indent_down g' ≫= λ g'', Some (indent g'')) = Some (indent g).
Proof.
  intros Hpos Hup. split.
  - apply indent_up_Some in Hup as [_ ->]. rewrite !indent_replicate. cbn.
    replace (Z.to_nat (indent_ g + 1)) with (Z.to_nat (indent_ g) + 1)%nat
      by lia.
    rewrite replicate_add, concat_app. reflexivity.
  - pose proof (indent_up_Some _ _ Hup) as [Hlt ->].
    rewrite indent_down_defined by (cbn; unfold INT_MIN; lia).
    cbn. f_equal. rewrite !indent_replicate. cbn. do 2 f_equal. lia.
Qed.

Lemma indent_after_indent_up_witness :
  ∃ g', indent_up (new_t_generator {| name_ := []; out_path_ := [] |})
        = Some g'
      ∧ indent g' = lit "  ".
Proof.
  eexists. split; [reflexivity|].
  refine (proj1 (indent_after_indent_up
                   (new_t_generator {| name_ := []; out_path_ := [] |})
                   _ _ eq_refl)).
  vm_compute. congruence.
Defined.

(** ** When temporary names are unique *)

Lemma uint_digits d :
  Forall (λ c, isdigit c = true) (lit (NilEmpty.string_of_uint d)).
Proof. induction d; cbn; constructor; done. Qed.

(** The counter of a non-negative value is rendered with digits only. *)
Lemma ostream_int_digits n :
  (0 ≤ n)%Z → Forall (λ c, isdigit c = true) (ostream_int n).
Proof.
  intros Hn. unfold ostream_int. destruct n as [|p|p]; [|..|lia].
  - by repeat constructor.
  - change (Z.to_int (Z.pos p)) with (Decimal.Pos (Pos.to_uint p)).
    unfold NilZero.string_of_int, NilZero.string_of_uint.
    destruct (Pos.to_uint p); try apply uint_digits.
    by repeat constructor.
Qed.

(** A string is cut in one way only into a part that does not end in a
    digit and a run of digits. *)
Lemma digits_suffix_unique (d1 : std_string) : ∀ (d2 l1 l2 : std_string),
  Forall (λ c, isdigit c = true) d1 → Forall (λ c, isdigit c = true) d2 →
  ends_in_digit l1 = false → ends_in_digit l2 = false →
  l1 ++ d1 = l2 ++ d2 → l1 = l2 ∧ d1 = d2.
Proof.
  induction d1 as [|x d1 IH] using rev_ind; intros d2 l1 l2 H1 H2 E1 E2 Heq.
  - destruct d2 as [|y d2 _] using rev_ind; [by rewrite !app_nil_r in Heq|].
    exfalso. rewrite app_nil_r in Heq. subst l1.
    unfold ends_in_digit in E1. rewrite (assoc_L (++)), last_snoc in E1.
    apply Forall_app in H2 as [_ Hy]. apply Forall_inv in Hy.
    cbn in E1. congruence.
  - destruct d2 as [|y d2 _] using rev_ind.
    + exfalso. rewrite app_nil_r in Heq. subst l2.
      unfold ends_in_digit in E2. rewrite (assoc_L (++)), last_snoc in E2.
      apply Forall_app in H1 as [_ Hx]. apply Forall_inv in Hx.
      cbn in E2. congruence.
    + rewrite !(assoc_L (++)) in Heq. apply app_inj_tail in Heq as [Heq ->].
      apply Forall_app in H1 as [H1 _]. apply Forall_app in H2 as [H2 _].
      destruct (IH d2 l1 l2 H1 H2 E1 E2 Heq) as [-> ->]. done.
Qed.

(** X18. Names made by [tmp] are unique within an instance as long as no
    prefix ends in a decimal digit: whatever the prefixes and whatever is
    called in between, a later name differs from an earlier one. *)
Theorem tmp_names_unique
    (name name' r r' : std_string) (ms : list method)
    (g g1 g2 g3 : t_generator) :
  (0 ≤ tmp_ g)%Z →
  ends_in_digit name = false → ends_in_digit name' = false →
  tmp name g = Some (r, g1) →
  calls ms g1 = Some g2 →
  tmp name' g2 = Some (r', g3) →
  r ≠ r'.
Proof.
  intros Hpos E E' H1 Hms H2.
  apply tmp_Some in H1 as (_ & -> & ->).
  apply tmp_Some in H2 as (_ & -> & _).
  apply calls_tmp_le in Hms. cbn in Hms. intros Heq.
  apply digits_suffix_unique in Heq as [_ Heq%ostream_int_inj];
    [lia|apply ostream_int_digits; lia..|done|done].
Qed.

Lemma tmp_names_unique_witness :
  ∃ r r' g1 g2 g3,
    tmp (lit "iter") (new_t_generator {| name_ := []; out_path_ := [] |})
    = Some (r, g1)
    ∧ calls [call_tmp (lit "elem"); call_indent_up] g1 = Some g2
    ∧ tmp (lit "_key") g2 = Some (r', g3)
    ∧ r ≠ r'.
Proof.
  do 5 eexists. split; [reflexivity|]. split; [reflexivity|].
  split; [reflexivity|].
  eapply (tmp_names_unique (lit "iter") (lit "_key") _ _
            [call_tmp (lit "elem"); call_indent_up]
            (new_t_generator {| name_ := []; out_path_ := [] |}));
    first [reflexivity | vm_compute; congruence].
Defined.

Lemma calls_tmp_only (names : list (list ascii)) : ∀ g,
  (tmp_ g + Z.of_nat (length names) ≤ INT_MAX)%Z →
  calls (call_tmp <$> names) g
  = Some (set_tmp_ (tmp_ g + Z.of_nat (length names)) g).
Proof.
  induction names as [|name names IH]; intros g Hlen.
  - cbn. f_equal. destruct g; cbn. unfold set_tmp_; cbn. f_equal. lia.
  - cbn [length] in Hlen. cbn [fmap list_fmap calls call].
    rewrite tmp_defined by lia. cbn [fmap option_fmap option_map snd mbind
      option_bind].
    rewrite IH by (cbn; lia). f_equal. unfold set_tmp_; cbn. f_equal. lia.
Qed.

(** X19. With a prefix that ends in a digit the names of [tmp] can come
    twice: on a fresh instance the first name for [name] followed by "1"
    is the name that [name] alone gets as the eleventh, whatever [name] is
    and whatever the nine prefixes in between. *)
Theorem tmp_names_collide
    (program : t_program) (name : std_string) (others : list (list ascii)) :
  length others = 9%nat →
  ∃ g1 g2 g3,
    tmp (name ++ lit "1") (new_t_generator program)
    = Some (name ++ lit "10", g1)
    ∧ calls (call_tmp <$> others) g1 = Some g2
    ∧ tmp name g2 = Some (name ++ lit "10", g3).
Proof.
  intros Hlen. do 3 eexists. split; [|split].
  - rewrite tmp_defined by done. rewrite <- (assoc_L (++)). reflexivity.
  - apply calls_tmp_only. rewrite Hlen. done.
  - rewrite tmp_defined by (rewrite Hlen; done).
    rewrite Hlen. reflexivity.
Qed.

Lemma tmp_names_collide_witness :
  ∃ g1 g2 g3,
    tmp (lit "x1") (new_t_generator {| name_ := []; out_path_ := [] |})
    = Some (lit "x10", g1)
    ∧ calls (call_tmp <$> replicate 9 (lit "y")) g1 = Some g2
    ∧ tmp (lit "x") g2 = Some (lit "x10", g3).
Proof.
  apply (tmp_names_collide {| name_ := []; out_path_ := [] |} (lit "x")
           (replicate 9 (lit "y"))).
  reflexivity.
Defined.

(** ** More about typedef resolution *)

Lemma typedef_path_snoc types type n last type' :
  typedef_path types type n last →
  types !! last = Some (Typedef type') →
  typedef_path types type (S n) type'.
Proof.
  induction 1 as [type|type t n last Hty _ IH]; intros Hlast.
  - eapply path_link; [done|constructor].
  - eapply path_link; [done|by apply IH].
Qed.

Lemma get_true_type_more_fuel fuel : ∀ types type r fuel',
  get_true_type fuel types type = r → r ≠ Unfinished →
  (fuel ≤ fuel')%nat → get_true_type fuel' types type = r.
Proof.
  induction fuel as [|fuel IH]; intros types type r fuel' Hr Hne Hle;
    [by subst r|].
  destruct fuel' as [|fuel']; [lia|]. cbn in Hr |- *.
  destruct (types !! type) as [[type'|name]|]; cbn in Hr |- *; [|done..].
  apply IH; [done|done|lia].
Qed.

(** X20. [get_true_type] returns a type exactly when a chain of typedef
    links leads from its argument to that type and the type is not a
    typedef; the loop then makes one test more than the chain has links. *)
Theorem get_true_type_returns_iff
    (fuel : nat) (types : gmap positive t_type) (type last : positive) :
  get_true_type fuel types type = Returns last
  ↔ ∃ n, (n < fuel)%nat ∧ typedef_chain types type n last.
Proof.
  split.
  - apply get_true_type_Returns.
  - intros (n & Hn & Hchain). by eapply get_true_type_chain.
Qed.



(** X22. What [get_true_type] returns is never a typedef, and resolving it
    again returns it at once: the true type of a true type is itself. *)
Theorem get_true_type_fixed_point
    (fuel : nat) (types : gmap positive t_type) (type last : positive) :
  get_true_type fuel types type = Returns last →
  (∃ name, types !! last = Some (NotTypedef name))
  ∧ ∀ fuel', get_true_type (S fuel') types last = Returns last.
Proof.
  intros (n & _ & Hchain)%get_true_type_Returns.
  destruct (typedef_chain_end _ _ _ _ Hchain) as [name Hlast].
  split; [by exists name|]. intros fuel'. cbn. by rewrite Hlast.
Qed.

Lemma get_true_type_fixed_point_witness :
  get_true_type 1
    (<[1%positive := Typedef 2]>
       (<[2%positive := NotTypedef (lit "i64")]> ∅)) 2%positive
  = Returns 2%positive.
Proof.
  exact (proj2 (get_true_type_fixed_point 2
                  (<[1%positive := Typedef 2]>
                     (<[2%positive := NotTypedef (lit "i64")]> ∅))
                  1%positive 2%positive eq_refl) 0%nat).
Defined.

Lemma get_true_type_cycle_step types type k :
  typedef_path types type (S k) type →
  ∃ type', types !! type = Some (Typedef type')
         ∧ typedef_path types type' (S k) type'.
Proof.
  inversion 1 as [|? type' ? ? Hty Hpath]; subst.
  exists type'. split; [done|]. by eapply typedef_path_snoc.
Qed.

Lemma get_true_type_cycle_unfinished fuel : ∀ types type k,
  typedef_path types type (S k) type →
  get_true_type fuel types type = Unfinished.
Proof.
  induction fuel as [|fuel IH]; intros types type k Hcycle; [done|].
  destruct (get_true_type_cycle_step _ _ _ Hcycle) as (type' & Hty & Hcycle').
  cbn. rewrite Hty. cbn. by eapply IH.
Qed.

(** X23. On a typedef chain that runs into a cycle, be it a typedef of
    itself or a longer loop, [get_true_type] does not return: however many
    iterations it is given, its loop has not ended. *)
Theorem get_true_type_cycle_never_returns
    (types : gmap positive t_type) (type entry : positive) (n k : nat) :
  typedef_path types type n entry →
  typedef_path types entry (S k) entry →
  ∀ fuel, get_true_type fuel types type = Unfinished.
Proof.
  induction 1 as [type|type type' n entry Hty _ IH]; intros Hcycle fuel.
  - by eapply get_true_type_cycle_unfinished.
  - destruct fuel; [done|]. cbn. rewrite Hty. cbn. by apply IH.
Qed.

Lemma get_true_type_cycle_never_returns_witness :
  get_true_type 1000
    (<[1%positive := Typedef 2]>
       (<[2%positive := Typedef 3]> (<[3%positive := Typedef 2]> ∅)))
    1%positive
  = Unfinished.
Proof.
  refine (get_true_type_cycle_never_returns _ 1 2 1 1 _ _ 1000%nat)%positive.
  - eapply path_link; [reflexivity|constructor].
  - eapply path_link; [reflexivity|].
    eapply path_link; [reflexivity|constructor].
Defined.

(** X24. On a typedef chain that ends in a pointer to no object (a null or
    dangling pointer) [get_true_type] dereferences it: after as many
    iterations as the chain has links the behaviour is undefined, and no
    type is ever returned. *)
Theorem get_true_type_dangling
    (types : gmap positive t_type) (type last : positive) (n : nat) :
  typedef_path types type n last →
  types !! last = None →
  (∀ fuel, (n < fuel)%nat → get_true_type fuel types type = Undefined)
  ∧ ∀ fuel t, get_true_type fuel types type ≠ Returns t.
Proof.
  intros Hpath Hlast.
  assert (∀ fuel, (n < fuel)%nat → get_true_type fuel types type = Undefined)
    as Hundef.
  { induction Hpath as [type|type type' n last Hty _ IH]; intros fuel Hfuel.
    - destruct fuel; [lia|]. cbn. by rewrite Hlast.
    - destruct fuel; [lia|]. cbn. rewrite Hty. cbn. apply IH; [done|lia]. }
  split; [done|]. intros fuel t Hret.
  assert (get_true_type (fuel + S n) types type = Returns t) as Hmore
    by (eapply get_true_type_more_fuel; [done|done|lia]).
  rewrite Hundef in Hmore by lia. done.
Qed.

Lemma get_true_type_dangling_witness :
  get_true_type 2 (<[1%positive := Typedef 2]> ∅) 1%positive = Undefined.
Proof.
  refine (proj1 (get_true_type_dangling (<[1%positive := Typedef 2]> ∅)
                   1%positive 2%positive 1 _ _) 2%nat _).
  - eapply path_link; [reflexivity|constructor].
  - reflexivity.
  - lia.
Defined.

(** ** The escape table of a new instance *)

(** X25. The escape table the constructor builds has an entry for five
    characters and no other: newline, carriage return, tab, double quote
    and backslash; each entry is two characters long and starts with a
    backslash. *)
Theorem escape_table (program : t_program) (c : ascii) :
  (is_Some (escape_ (new_t_generator program) !! c)
   ↔ c ∈ ["010"; "013"; "009"; "034"; "092"]%char)
  ∧ ∀ e, escape_ (new_t_generator program) !! c = Some e →
         length e = 2%nat ∧ e !! 0%nat = Some "092"%char.
Proof.
  assert (bool_decide (is_Some (escape_ (new_t_generator program) !! c))
          = bool_decide (c ∈ ["010"; "013"; "009"; "034"; "092"]%char))
    as Hdom by (destruct c as [[] [] [] [] [] [] [] []]; by vm_compute).
  split.
  - rewrite <- (bool_decide_eq_true (is_Some _)), Hdom.
    apply bool_decide_eq_true.
  - clear Hdom. intros e.
    destruct c as [[] [] [] [] [] [] [] []]; vm_compute;
      intros [= <-]; split; reflexivity.
Qed.
